(** * copy_file_range_stub.c: the glibc 2.27 compatibility shim

    The translation unit defines one function,

      ssize_t copy_file_range(int fd_in, off_t *off_in,
                              int fd_out, off_t *off_out,
                              size_t len, unsigned int flags)
      { errno = ENOSYS; return -1; }

    The function is embedded as a program over the effects a C function of
    this signature can have on its environment (the thread's [errno], the
    [off_t] objects behind its pointers, the files behind its descriptors).
    Programs are run against a world by a total interpreter, which also
    records every access, and threads are interleaved by a scheduler. *)

From Stdlib Require Import ZArith List Bool Lia.
From stdpp Require Import gmap list.

Local Open Scope Z_scope.

(** ** C integer types *)

Module CInt.

(** Two's-complement reduction of [z] to a signed integer of [bits] bits. *)
Definition wrap_signed (bits z : Z) : Z :=
  (z + 2 ^ (bits - 1)) mod 2 ^ bits - 2 ^ (bits - 1).

Definition in_signed (bits z : Z) : Prop :=
  - 2 ^ (bits - 1) <= z < 2 ^ (bits - 1).

(** [int] is 32 bits wide; [ssize_t] is [long], 64 bits on the LP64 targets
    of glibc 2.27 and 32 bits on its ILP32 ones. *)
Definition int_bits : Z := 32.
Definition ssize_bits : Z := 64.

(** Unary minus on [int]. *)
Definition int_neg (z : Z) : Z := wrap_signed int_bits (- z).

(** The conversion of an [int] to the return type [ssize_t]. *)
Definition ssize_of_int (z : Z) : Z := wrap_signed ssize_bits z.

Definition in_ssize_t (z : Z) : Prop := in_signed ssize_bits z.

End CInt.

(** ** The environment *)

(** Threads are numbered; [errno] is an lvalue of the calling thread. *)
Abbreviation tid := nat (only parsing).

(** A pointer is an address; [NULL] is address 0. *)
Abbreviation ptr := Z (only parsing).
Definition NULL : ptr := 0.

(** An open file: its bytes and the file position. *)
Record file := File { contents : list Z; position : Z }.

(** The state a call can observe or change: the error indicator of every
    thread, the [off_t] objects in memory by address, and the open files by
    descriptor. *)
Record world := World {
  errno : gmap tid Z;
  mem : gmap ptr Z;
  fds : gmap Z file
}.

Definition set_errno (t : tid) (v : Z) (w : world) : world :=
  World (<[t := v]> (errno w)) (mem w) (fds w).

Definition set_mem (p : ptr) (v : Z) (w : world) : world :=
  World (errno w) (<[p := v]> (mem w)) (fds w).

Definition set_file (fd : Z) (f : file) (w : world) : world :=
  World (errno w) (mem w) (<[fd := f]> (fds w)).

(** ** Effects and programs *)

(** What a statement can do to the world, indexed by the type of the value
    it yields. [FileOp fd op] stands for any I/O on descriptor [fd] (read,
    write, seek): [op] gives the new file and the call's result. *)
Inductive eff : Type -> Type :=
| SetErrno (v : Z) : eff unit
| Load (p : ptr) : eff Z
| Store (p : ptr) (v : Z) : eff unit
| FileOp (fd : Z) (op : file -> file * Z) : eff Z.

(** A function body: it returns, or performs an effect and goes on with the
    value the effect yields. *)
Inductive prog (R : Type) : Type :=
| Ret (r : R)
| Op {X : Type} (e : eff X) (k : X -> prog R).

Arguments Ret {R} r.
Arguments Op {R X} e k.

(** The record of an effect, kept by the interpreter. *)
Inductive event :=
| EvErrno (v : Z)
| EvLoad (p : ptr)
| EvStore (p : ptr) (v : Z)
| EvFile (fd : Z).

Definition event_of {X} (e : eff X) : event :=
  match e with
  | SetErrno v => EvErrno v
  | Load p => EvLoad p
  | Store p v => EvStore p v
  | FileOp fd _ => EvFile fd
  end.

(** The object an event touches, for the thread that performs it. *)
Inductive loc :=
| LErrno (t : tid)
| LMem (p : ptr)
| LFile (fd : Z).

#[global] Instance loc_eq_dec : EqDecision loc.
Proof. solve_decision. Defined.

Definition loc_of (t : tid) (ev : event) : loc :=
  match ev with
  | EvErrno _ => LErrno t
  | EvLoad p => LMem p
  | EvStore p _ => LMem p
  | EvFile fd => LFile fd
  end.

Definition is_write (ev : event) : bool :=
  match ev with
  | EvLoad _ => false
  | _ => true
  end.

(** Events that go through a pointer, that are I/O, that can fail or block. *)
Definition is_deref (ev : event) : bool :=
  match ev with
  | EvLoad _ | EvStore _ _ => true
  | _ => false
  end.

Definition is_io (ev : event) : bool :=
  match ev with
  | EvFile _ => true
  | _ => false
  end.

Definition is_fallible (ev : event) : bool := is_deref ev || is_io ev.

(** One effect of thread [t] on the world. [None] is undefined behaviour:
    an access through [NULL] or through an address that holds no object.
    I/O on a descriptor that is not open fails with -1. *)
Definition handle (t : tid) {X} (e : eff X) (w : world) : option (X * world) :=
  match e in eff X return option (X * world) with
  | SetErrno v => Some (tt, set_errno t v w)
  | Load p =>
      if decide (p = NULL) then None
      else match mem w !! p with
           | Some v => Some (v, w)
           | None => None
           end
  | Store p v =>
      if decide (p = NULL) then None
      else match mem w !! p with
           | Some _ => Some (tt, set_mem p v w)
           | None => None
           end
  | FileOp fd op =>
      match fds w !! fd with
      | Some f => let '(f', r) := op f in Some (r, set_file fd f' w)
      | None => Some (-1, w)
      end
  end.

(** A call by thread [t], run to its return. *)
Fixpoint run {R} (t : tid) (p : prog R) (w : world) : option (R * world) :=
  match p with
  | Ret r => Some (r, w)
  | Op e k =>
      match handle t e w with
      | Some (x, w') => run t (k x) w'
      | None => None
      end
  end.

(** The events of that call, in order, up to its return or to the undefined
    access. *)
Fixpoint trace {R} (t : tid) (p : prog R) (w : world) : list event :=
  match p with
  | Ret _ => []
  | Op e k =>
      event_of e ::
      match handle t e w with
      | Some (x, w') => trace t (k x) w'
      | None => []
      end
  end.

(** One step of a call by thread [t]; a call that has returned stays put. *)
Definition step {R} (t : tid) (p : prog R) (w : world) : option (prog R * world) :=
  match p with
  | Ret r => Some (Ret r, w)
  | Op e k =>
      match handle t e w with
      | Some (x, w') => Some (k x, w')
      | None => None
      end
  end.

(** What the caller sees after the call: the value returned and its own
    error indicator. *)
Definition observe (t : tid) (p : prog Z) (w : world) : option (Z * option Z) :=
  match run t p w with
  | Some (r, w') => Some (r, errno w' !! t)
  | None => None
  end.

(** ** Threads *)

(** Thread [t] runs the call at index [t] of [threads]; [log] lists the
    accesses made so far with the thread that made each. *)
Record config := Config {
  threads : list (prog Z);
  state : world;
  log : list (tid * event)
}.

(** The scheduler lets thread [t] take its next step. A thread that has
    returned, or a number that names no thread, changes nothing. *)
Definition sched_step (c : config) (t : tid) : option config :=
  match threads c !! t with
  | Some (Op e k) =>
      match handle t e (state c) with
      | Some (x, w') =>
          Some (Config (<[t := k x]> (threads c)) w' (log c ++ [(t, event_of e)]))
      | None => None
      end
  | _ => Some c
  end.

Fixpoint run_sched (c : config) (s : list tid) : option config :=
  match s with
  | [] => Some c
  | t :: s' =>
      match sched_step c t with
      | Some c' => run_sched c' s'
      | None => None
      end
  end.

(** Two accesses conflict when different threads make them on the same
    object and one of them writes. No step of this model synchronises, so a
    log with a conflicting pair has a data race. *)
Definition conflict (a b : tid * event) : bool :=
  negb (Nat.eqb a.1 b.1)
  && bool_decide (loc_of a.1 a.2 = loc_of b.1 b.2)
  && (is_write a.2 || is_write b.2).

Definition race_free (l : list (tid * event)) : bool :=
  forallb (fun a => forallb (fun b => negb (conflict a b)) l) l.

(** ** The shim *)

(** The six parameters of the call, as the C prototype lists them. *)
Record args := Args {
  fd_in : Z;
  off_in : ptr;
  fd_out : Z;
  off_out : ptr;
  len : Z;
  flags : Z
}.

(** A world to try calls on: thread 0 with a clear [errno], two [off_t]
    objects holding 0, and two open files that can be told apart. *)
Definition fixture : world :=
  World {[ 0%nat := 0 ]}
        {[ 4096 := 0; 4104 := 0 ]}
        {[ 3 := File [104; 105; 33] 0; 4 := File [] 0 ]}.

Section Shim.

(** [ENOSYS] comes from <errno.h>, which is not part of the repository: an
    integer constant of type [int] whose value the platform fixes. *)
Variable ENOSYS : Z.

(** [errno = ENOSYS; return -1;] *)
Definition copy_file_range (fd_in : Z) (off_in : ptr) (fd_out : Z)
    (off_out : ptr) (len : Z) (flags : Z) : prog Z :=
  Op (SetErrno ENOSYS) (fun _ => Ret (CInt.ssize_of_int (CInt.int_neg 1))).

Definition call (a : args) : prog Z :=
  copy_file_range (fd_in a) (off_in a) (fd_out a) (off_out a) (len a) (flags a).

(** One call per thread. *)
Definition spawn (calls : list args) (w : world) : config :=
  Config (map call calls) w [].

(** What the scheduler keeps true of a pool of such calls: a thread is
    still before its call or it has returned -1 with its [errno] set, and
    every access logged so far is a store of [ENOSYS] to [errno]. *)
Definition returned (w : world) (t : tid) (p : prog Z) : Prop :=
  p = Ret (-1) /\ errno w !! t = Some ENOSYS.

Definition sched_inv (c : config) : Prop :=
  (forall t p, threads c !! t = Some p ->
     (exists a, p = call a) \/ returned (state c) t p)
  /\ Forall (fun te => te.2 = EvErrno ENOSYS) (log c).

(** *** Integer conversions *)

Lemma wrap_signed_range bits z :
  0 < bits -> CInt.in_signed bits (CInt.wrap_signed bits z).
Proof.
  intros Hb. unfold CInt.in_signed, CInt.wrap_signed.
  assert (H2 : 2 ^ bits = 2 * 2 ^ (bits - 1)).
  { replace bits with (Z.succ (bits - 1)) at 1 by lia.
    rewrite Z.pow_succ_r by lia. reflexivity. }
  assert (Hp : 0 < 2 ^ (bits - 1)) by (apply Z.pow_pos_nonneg; lia).
  pose proof (Z.mod_pos_bound (z + 2 ^ (bits - 1)) (2 ^ bits)) as Hm.
  lia.
Qed.

Lemma return_value : CInt.ssize_of_int (CInt.int_neg 1) = -1.
Proof. reflexivity. Qed.

Lemma return_value_typed : CInt.in_ssize_t (CInt.ssize_of_int (CInt.int_neg 1)).
Proof. apply wrap_signed_range. reflexivity. Qed.

(** *** The world *)

Lemma set_errno_twice t v v' w : set_errno t v (set_errno t v' w) = set_errno t v w.
Proof. unfold set_errno; simpl. f_equal. apply insert_insert_eq. Qed.

Lemma errno_set_errno t v w : errno (set_errno t v w) !! t = Some v.
Proof. apply lookup_insert_eq. Qed.

Lemma errno_set_errno_other t t' v w :
  t <> t' -> errno (set_errno t v w) !! t' = errno w !! t'.
Proof. intros Hne. simpl. apply lookup_insert_ne. exact Hne. Qed.

(** The interpreter does tell a dereference from none: a body that reads
    through a null pointer has no defined result. *)
Lemma load_null_undefined t w : run t (Op (Load NULL) Ret) w = None.
Proof. reflexivity. Qed.

Lemma load_unmapped_undefined t p w :
  mem w !! p = None -> run t (Op (Load p) Ret) w = None.
Proof.
  intros Hp. simpl. destruct (decide (p = NULL)); [reflexivity|].
  rewrite Hp. reflexivity.
Qed.

(** *** One call *)

Lemma call_body a : call a = Op (SetErrno ENOSYS) (fun _ => Ret (-1)).
Proof. reflexivity. Qed.

Lemma call_any a b : call a = call b.
Proof. reflexivity. Qed.

Lemma run_call a t w : run t (call a) w = Some (-1, set_errno t ENOSYS w).
Proof. reflexivity. Qed.

Lemma trace_call a t w : trace t (call a) w = [EvErrno ENOSYS].
Proof. reflexivity. Qed.

Lemma step_call a t w : step t (call a) w = Some (Ret (-1), set_errno t ENOSYS w).
Proof. reflexivity. Qed.

Lemma observe_call a t w : observe t (call a) w = Some (-1, Some ENOSYS).
Proof. unfold observe. rewrite run_call, errno_set_errno. reflexivity. Qed.

(** *** Interleaved calls *)

Lemma spawn_inv calls w : sched_inv (spawn calls w).
Proof.
  split; [|constructor].
  intros t p Hp. left. simpl in Hp.
  apply list_lookup_fmap_Some in Hp as (a & -> & _). exists a. reflexivity.
Qed.

(** A scheduled thread that has not called yet makes its whole call. *)
Lemma sched_step_call c t a :
  threads c !! t = Some (call a) ->
  sched_step c t =
    Some (Config (<[t := Ret (-1)]> (threads c)) (set_errno t ENOSYS (state c))
                 (log c ++ [(t, EvErrno ENOSYS)])).
Proof. intros Ht. unfold sched_step. rewrite Ht. reflexivity. Qed.

Lemma sched_step_returned c t r :
  threads c !! t = Some (Ret r) -> sched_step c t = Some c.
Proof. intros Ht. unfold sched_step. rewrite Ht. reflexivity. Qed.

Lemma sched_step_absent c t :
  threads c !! t = None -> sched_step c t = Some c.
Proof. intros Ht. unfold sched_step. rewrite Ht. reflexivity. Qed.

Lemma sched_step_inv c t :
  sched_inv c ->
  exists c', sched_step c t = Some c'
    /\ sched_inv c'
    /\ length (threads c') = length (threads c)
    /\ mem (state c') = mem (state c)
    /\ fds (state c') = fds (state c)
    /\ (forall t', threads c !! t' = Some (Ret (-1)) ->
                   threads c' !! t' = Some (Ret (-1)))
    /\ (forall t', returned (state c) t' (Ret (-1)) ->
                   returned (state c') t' (Ret (-1)))
    /\ ((t < length (threads c))%nat -> threads c' !! t = Some (Ret (-1))).
Proof.
  intros [Hpool Hlog].
  destruct (threads c !! t) as [p|] eqn:Ht.
  - destruct (Hpool t p Ht) as [[a ->]|[-> He]].
    + eexists. split; [apply (sched_step_call _ _ _ Ht)|]. simpl.
      assert (Hlt : (t < length (threads c))%nat)
        by (apply lookup_lt_is_Some; eauto).
      split_and!.
      * split; simpl.
        -- intros t' p' Hp'. destruct (decide (t = t')) as [<-|Hne].
           ++ rewrite list_lookup_insert_eq in Hp' by exact Hlt.
              injection Hp' as <-. right. split; [reflexivity|].
              apply errno_set_errno.
           ++ rewrite list_lookup_insert_ne in Hp' by exact Hne.
              destruct (Hpool t' p' Hp') as [Hc|[Hr He]]; [left; exact Hc|].
              right. split; [exact Hr|].
              rewrite errno_set_errno_other by exact Hne. exact He.
        -- apply Forall_app. split; [exact Hlog|]. repeat constructor.
      * apply length_insert.
      * reflexivity.
      * reflexivity.
      * intros t' Hp'. destruct (decide (t = t')) as [<-|Hne].
        -- rewrite Ht, call_body in Hp'. discriminate Hp'.
        -- rewrite list_lookup_insert_ne by exact Hne. exact Hp'.
      * intros t' [_ He]. split; [reflexivity|].
        destruct (decide (t = t')) as [<-|Hne].
        -- apply errno_set_errno.
        -- rewrite errno_set_errno_other by exact Hne. exact He.
      * intros _. apply list_lookup_insert_eq. exact Hlt.
    + exists c. split; [apply (sched_step_returned _ _ _ Ht)|].
      split_and!; auto. split; assumption.
  - exists c. split; [apply (sched_step_absent _ _ Ht)|].
    split_and!; auto; [split; assumption|].
    intros Hlt. apply lookup_ge_None in Ht. lia.
Qed.

Lemma run_sched_inv s : forall c,
  sched_inv c ->
  exists c', run_sched c s = Some c'
    /\ sched_inv c'
    /\ length (threads c') = length (threads c)
    /\ mem (state c') = mem (state c)
    /\ fds (state c') = fds (state c)
    /\ (forall t', threads c !! t' = Some (Ret (-1)) ->
                   threads c' !! t' = Some (Ret (-1)))
    /\ (forall t', returned (state c) t' (Ret (-1)) ->
                   returned (state c') t' (Ret (-1))).
Proof.
  induction s as [|t s IH]; intros c Hinv.
  - exists c. simpl. split_and!; auto.
  - destruct (sched_step_inv c t Hinv)
      as (c1 & Hstep & Hinv1 & Hlen1 & Hmem1 & Hfds1 & Hkeep1 & Hret1 & _).
    destruct (IH c1 Hinv1)
      as (c2 & Hrun & Hinv2 & Hlen2 & Hmem2 & Hfds2 & Hkeep2 & Hret2).
    exists c2. simpl. rewrite Hstep. split_and!; auto; congruence.
Qed.

(** A thread that was scheduled at least once has returned. *)
Lemma run_sched_returns s : forall c c' t,
  sched_inv c -> run_sched c s = Some c' ->
  t ∈ s -> (t < length (threads c))%nat ->
  threads c' !! t = Some (Ret (-1)).
Proof.
  induction s as [|t0 s IH]; intros c c' t Hinv Hrun Hin Hlt.
  - inversion Hin.
  - destruct (sched_step_inv c t0 Hinv)
      as (c1 & Hstep & Hinv1 & Hlen1 & _ & _ & _ & _ & Hdone).
    simpl in Hrun. rewrite Hstep in Hrun.
    destruct (decide (t = t0)) as [->|Hne].
    + destruct (run_sched_inv s c1 Hinv1)
        as (c2 & Hrun2 & _ & _ & _ & _ & Hkeep & _).
      rewrite Hrun in Hrun2. injection Hrun2 as <-.
      apply Hkeep, Hdone, Hlt.
    + apply (IH c1 c' t Hinv1 Hrun).
      * apply elem_of_cons in Hin as [Heq|Hin]; [contradiction|exact Hin].
      * rewrite Hlen1. exact Hlt.
Qed.

Lemma returned_errno c t :
  sched_inv c -> threads c !! t = Some (Ret (-1)) ->
  errno (state c) !! t = Some ENOSYS.
Proof.
  intros [Hpool _] Ht. destruct (Hpool t _ Ht) as [[a Ha]|[_ He]].
  - rewrite call_body in Ha. discriminate Ha.
  - exact He.
Qed.

(** A log of [errno] stores has no conflicting pair: every thread stores
    to its own [errno]. *)
Lemma errno_log_race_free l :
  Forall (fun te : tid * event => te.2 = EvErrno ENOSYS) l -> race_free l = true.
Proof.
  intros Hl. rewrite Forall_forall in Hl.
  unfold race_free. apply forallb_forall. intros [ta ea] Ha.
  apply forallb_forall. intros [tb eb] Hb.
  apply list_elem_of_In, Hl in Ha. apply list_elem_of_In, Hl in Hb.
  simpl in Ha, Hb. subst ea eb. unfold conflict. simpl.
  destruct (Nat.eqb_spec ta tb) as [Heq|Hne]; [reflexivity|].
  rewrite bool_decide_eq_false_2; [reflexivity|].
  intros Hloc. injection Hloc as Heq. contradiction.
Qed.

(** The race check is not vacuous: a store and a load of one object by two
    threads conflict. *)
Lemma shared_store_races p v : race_free [(0%nat, EvStore p v); (1%nat, EvLoad p)] = false.
Proof.
  unfold race_free, conflict. simpl.
  rewrite bool_decide_eq_true_2 by reflexivity. reflexivity.
Qed.

(** ** The claims *)

(** C1. Whatever the six arguments are (null or non-null offset pointers,
    negative descriptors, a zero length, any flags), in every world and for
    every calling thread, the call returns -1: a value of type [ssize_t]
    that is neither 0 nor a positive byte count. *)
Theorem copy_file_range_returns_failure
    (fdi : Z) (offi : ptr) (fdo : Z) (offo : ptr) (n fl : Z) (t : tid) (w : world) :
  exists r w',
    run t (copy_file_range fdi offi fdo offo n fl) w = Some (r, w')
    /\ r = -1 /\ r < 0 /\ CInt.in_ssize_t r.
Proof.
  exists (-1), (set_errno t ENOSYS w). split_and!.
  - reflexivity.
  - reflexivity.
  - lia.
  - rewrite <- return_value. apply return_value_typed.
Qed.

(** C2. Every call leaves the calling thread's [errno] equal to [ENOSYS],
    and the one store of [ENOSYS] to [errno] is all the call does: no other
    error value is ever signalled. *)
Theorem copy_file_range_sets_ENOSYS (a : args) (t : tid) (w : world) :
  exists r w',
    run t (call a) w = Some (r, w')
    /\ errno w' !! t = Some ENOSYS
    /\ trace t (call a) w = [EvErrno ENOSYS].
Proof.
  exists (-1), (set_errno t ENOSYS w). split_and!.
  - apply run_call.
  - apply errno_set_errno.
  - apply trace_call.
Qed.

(** C3. Any two calls, with any arguments, by any threads, in any worlds,
    show their callers the same outcome, return value -1 and [errno]
    [ENOSYS]: the body is the same program for all arguments, so no
    argument, and no validity of a descriptor, influences the result. *)
Theorem copy_file_range_input_independent
    (a1 a2 : args) (t1 t2 : tid) (w1 w2 : world) :
  call a1 = call a2
  /\ run t1 (call a1) w1 = run t1 (call a2) w1
  /\ observe t1 (call a1) w1 = observe t2 (call a2) w2
  /\ observe t1 (call a1) w1 = Some (-1, Some ENOSYS).
Proof.
  split_and!.
  - apply call_any.
  - reflexivity.
  - rewrite !observe_call. reflexivity.
  - apply observe_call.
Qed.

(** C4. No event of a call goes through a pointer, so [off_in] and
    [off_out] are never dereferenced; the call has a defined result in
    every world, also with both pointers null and no object in memory; the
    body does not depend on any parameter; and memory is left as it was. *)
Theorem copy_file_range_no_dereference (a : args) (t : tid) (w : world) :
  Forall (fun ev => is_deref ev = false) (trace t (call a) w)
  /\ is_Some (run t (call a) w)
  /\ is_Some (run t (copy_file_range (fd_in a) NULL (fd_out a) NULL (len a) (flags a))
                   (World (errno w) ∅ (fds w)))
  /\ (forall b : args, call b = call a)
  /\ exists r w', run t (call a) w = Some (r, w') /\ mem w' = mem w.
Proof.
  split_and!.
  - rewrite trace_call. repeat constructor.
  - rewrite run_call. eexists. reflexivity.
  - eexists. reflexivity.
  - intros b. apply call_any.
  - exists (-1), (set_errno t ENOSYS w). split; [apply run_call|reflexivity].
Qed.

(** C5. A call performs no I/O: the table of open files, hence the
    contents and the position of the files behind [fd_in] and [fd_out], is
    the same after the call as before, and so is memory, hence the objects
    [off_in] and [off_out] point to; no event of the call is I/O or an
    access through a pointer. *)
Theorem copy_file_range_no_io (a : args) (t : tid) (w : world) :
  exists r w',
    run t (call a) w = Some (r, w')
    /\ fds w' = fds w
    /\ mem w' = mem w
    /\ fds w' !! fd_in a = fds w !! fd_in a
    /\ fds w' !! fd_out a = fds w !! fd_out a
    /\ mem w' !! off_in a = mem w !! off_in a
    /\ mem w' !! off_out a = mem w !! off_out a
    /\ Forall (fun ev => is_io ev = false /\ is_deref ev = false)
              (trace t (call a) w).
Proof.
  exists (-1), (set_errno t ENOSYS w). split_and!; try reflexivity.
  rewrite trace_call. repeat constructor.
Qed.

(** C6. Every call returns: the interpreter is total and gives a result
    in every world, the call has returned after a single step, and that
    step, the only event, is neither I/O nor an access that can fail. *)
Theorem copy_file_range_terminates (a : args) (t : tid) (w : world) :
  is_Some (run t (call a) w)
  /\ step t (call a) w = Some (Ret (-1), set_errno t ENOSYS w)
  /\ length (trace t (call a) w) = 1%nat
  /\ Forall (fun ev => is_fallible ev = false) (trace t (call a) w).
Proof.
  split_and!.
  - rewrite run_call. eexists. reflexivity.
  - apply step_call.
  - rewrite trace_call. reflexivity.
  - rewrite trace_call. repeat constructor.
Qed.

(** C7. Let any number of threads make one call each, with any arguments,
    under any schedule. The run is defined, and a thread that was scheduled
    has returned -1 and finds [ENOSYS] in its own [errno]; the accesses of
    the run have no conflicting pair, so there is no data race; memory and
    files are untouched. *)
Theorem copy_file_range_concurrent
    (calls : list args) (w : world) (s : list tid) (t : tid)
    (Ht : (t < length calls)%nat) (Hs : t ∈ s) :
  exists c,
    run_sched (spawn calls w) s = Some c
    /\ threads c !! t = Some (Ret (-1))
    /\ errno (state c) !! t = Some ENOSYS
    /\ race_free (log c) = true
    /\ mem (state c) = mem w
    /\ fds (state c) = fds w.
Proof.
  destruct (run_sched_inv s (spawn calls w) (spawn_inv calls w))
    as (c & Hrun & Hinv & _ & Hmem & Hfds & _ & _).
  assert (Hret : threads c !! t = Some (Ret (-1))).
  { apply (run_sched_returns s (spawn calls w) c t (spawn_inv calls w) Hrun Hs).
    simpl. rewrite length_map. exact Ht. }
  exists c. split_and!.
  - exact Hrun.
  - exact Hret.
  - apply (returned_errno c t Hinv Hret).
  - apply errno_log_race_free, Hinv.
  - exact Hmem.
  - exact Hfds.
Qed.

(** C8. The world after a call is the world before it with the calling
    thread's [errno] replaced by [ENOSYS]: the [errno] of the other threads,
    memory and files are as before. The new value does not depend on the
    old one: started from any two values of [errno], the call ends in the
    same world, so nothing of the caller's earlier [errno] is kept. *)
Theorem copy_file_range_overwrites_errno (a : args) (t : tid) (w : world) (e0 e1 : Z) :
  exists w',
    run t (call a) w = Some (-1, w')
    /\ w' = set_errno t ENOSYS w
    /\ errno w' !! t = Some ENOSYS
    /\ delete t (errno w') = delete t (errno w)
    /\ mem w' = mem w
    /\ fds w' = fds w
    /\ run t (call a) (set_errno t e0 w) = Some (-1, w')
    /\ run t (call a) (set_errno t e0 w) = run t (call a) (set_errno t e1 w).
Proof.
  exists (set_errno t ENOSYS w). split_and!; try reflexivity.
  - apply errno_set_errno.
  - simpl. apply delete_insert_eq.
  - rewrite run_call, set_errno_twice. reflexivity.
  - rewrite !run_call, !set_errno_twice. reflexivity.
Qed.

(** C9. A second call, with any arguments, made right after a first one
    returns what the first returned and leaves the world the first left:
    [errno] is [ENOSYS] and the last return value is -1, as after one
    call. *)
Theorem copy_file_range_idempotent (a b : args) (t : tid) (w : world) :
  exists r w1,
    run t (call a) w = Some (r, w1)
    /\ run t (call b) w1 = Some (r, w1)
    /\ r = -1
    /\ errno w1 !! t = Some ENOSYS.
Proof.
  exists (-1), (set_errno t ENOSYS w). split_and!.
  - apply run_call.
  - rewrite run_call, set_errno_twice. reflexivity.
  - reflexivity.
  - apply errno_set_errno.
Qed.

(** ** Further properties of interleaved calls *)

(** What one scheduler step does to a pool of such calls: nothing, when the
    thread is absent or has returned, or else the thread's whole call. *)
Lemma sched_step_cases c t0 :
  sched_inv c ->
  (sched_step c t0 = Some c
   /\ (threads c !! t0 = None \/ threads c !! t0 = Some (Ret (-1))))
  \/ (exists a, threads c !! t0 = Some (call a)
      /\ sched_step c t0 =
           Some (Config (<[t0 := Ret (-1)]> (threads c))
                        (set_errno t0 ENOSYS (state c))
                        (log c ++ [(t0, EvErrno ENOSYS)]))).
Proof.
  intros [Hpool _]. destruct (threads c !! t0) as [p|] eqn:Ht.
  - destruct (Hpool t0 p Ht) as [[a ->]|[-> _]].
    + right. exists a. split; [reflexivity|]. apply (sched_step_call c t0 a Ht).
    + left. split; [apply (sched_step_returned _ _ _ Ht)|]. right. reflexivity.
  - left. split; [apply sched_step_absent, Ht|]. left. reflexivity.
Qed.

(** A step of thread [t0] leaves every other thread as it was. *)
Lemma sched_step_other c t0 c1 t :
  sched_inv c -> sched_step c t0 = Some c1 -> t <> t0 ->
  errno (state c1) !! t = errno (state c) !! t
  /\ threads c1 !! t = threads c !! t.
Proof.
  intros Hinv Hstep Hne.
  destruct (sched_step_cases c t0 Hinv) as [[Hsame _]|(a & _ & Hcall)].
  - rewrite Hsame in Hstep. injection Hstep as <-. split; reflexivity.
  - rewrite Hcall in Hstep. injection Hstep as <-. simpl. split.
    + apply lookup_insert_ne. congruence.
    + apply list_lookup_insert_ne. congruence.
Qed.

(** A number that names no thread stays without one, whoever is
    scheduled, and no step writes the [errno] of that number. *)
Lemma sched_step_no_thread c t0 c1 t :
  sched_inv c -> sched_step c t0 = Some c1 -> threads c !! t = None ->
  errno (state c1) !! t = errno (state c) !! t
  /\ threads c1 !! t = None.
Proof.
  intros Hinv Hstep Hnone. destruct (decide (t = t0)) as [->|Hne].
  - rewrite (sched_step_absent _ _ Hnone) in Hstep. injection Hstep as <-.
    split; [reflexivity|exact Hnone].
  - destruct (sched_step_other c t0 c1 t Hinv Hstep Hne) as [He Ht].
    split; [exact He|]. rewrite Ht. exact Hnone.
Qed.

Lemma run_sched_unscheduled s : forall c c' t,
  sched_inv c -> run_sched c s = Some c' -> t ∉ s ->
  errno (state c') !! t = errno (state c) !! t
  /\ threads c' !! t = threads c !! t.
Proof.
  induction s as [|t0 s IH]; intros c c' t Hinv Hrun Hnot; simpl in Hrun.
  - injection Hrun as <-. split; reflexivity.
  - apply not_elem_of_cons in Hnot as [Hne Hnot].
    destruct (sched_step_inv c t0 Hinv) as (c1 & Hstep & Hinv1 & _).
    rewrite Hstep in Hrun.
    destruct (IH c1 c' t Hinv1 Hrun Hnot) as [He Ht].
    destruct (sched_step_other c t0 c1 t Hinv Hstep Hne) as [He1 Ht1].
    split; congruence.
Qed.

Lemma run_sched_no_thread s : forall c c' t,
  sched_inv c -> run_sched c s = Some c' -> threads c !! t = None ->
  errno (state c') !! t = errno (state c) !! t
  /\ threads c' !! t = None.
Proof.
  induction s as [|t0 s IH]; intros c c' t Hinv Hrun Hnone; simpl in Hrun.
  - injection Hrun as <-. split; [reflexivity|exact Hnone].
  - destruct (sched_step_inv c t0 Hinv) as (c1 & Hstep & Hinv1 & _).
    rewrite Hstep in Hrun.
    destruct (sched_step_no_thread c t0 c1 t Hinv Hstep Hnone) as [He1 Ht1].
    destruct (IH c1 c' t Hinv1 Hrun Ht1) as [He Ht].
    split; congruence.
Qed.

(** The threads in the log are the threads that have returned, each once. *)
Lemma sched_step_log c t0 c1 :
  sched_inv c -> sched_step c t0 = Some c1 ->
  NoDup (log c).*1 ->
  (forall t, t ∈ (log c).*1 <-> threads c !! t = Some (Ret (-1))) ->
  NoDup (log c1).*1
  /\ (forall t, t ∈ (log c1).*1 <-> threads c1 !! t = Some (Ret (-1))).
Proof.
  intros Hinv Hstep Hnd Hlog.
  destruct (sched_step_cases c t0 Hinv) as [[Hsame _]|(a & Ha & Hcall)].
  - rewrite Hsame in Hstep. injection Hstep as <-. split; assumption.
  - rewrite Hcall in Hstep. injection Hstep as <-. simpl.
    assert (Hlt : (t0 < length (threads c))%nat)
      by (apply lookup_lt_is_Some; eauto).
    assert (Hfresh : t0 ∉ (log c).*1).
    { intros Hin. apply Hlog in Hin. rewrite Ha, call_body in Hin.
      discriminate Hin. }
    rewrite fmap_app. simpl. split.
    + apply NoDup_app. split_and!.
      * exact Hnd.
      * intros x Hx Hx0. apply list_elem_of_singleton in Hx0 as ->.
        contradiction.
      * apply NoDup_singleton.
    + intros t. rewrite elem_of_app, list_elem_of_singleton.
      destruct (decide (t = t0)) as [->|Hne].
      * rewrite list_lookup_insert_eq by exact Hlt. split; auto.
      * rewrite list_lookup_insert_ne by congruence. rewrite Hlog.
        split; [intros [H|H]; [exact H|contradiction]|auto].
Qed.

Lemma run_sched_log s : forall c c',
  sched_inv c -> run_sched c s = Some c' ->
  NoDup (log c).*1 ->
  (forall t, t ∈ (log c).*1 <-> threads c !! t = Some (Ret (-1))) ->
  NoDup (log c').*1
  /\ (forall t, t ∈ (log c').*1 <-> threads c' !! t = Some (Ret (-1))).
Proof.
  induction s as [|t0 s IH]; intros c c' Hinv Hrun Hnd Hlog; simpl in Hrun.
  - injection Hrun as <-. split; assumption.
  - destruct (sched_step_inv c t0 Hinv) as (c1 & Hstep & Hinv1 & _).
    rewrite Hstep in Hrun.
    destruct (sched_step_log c t0 c1 Hinv Hstep Hnd Hlog) as [Hnd1 Hlog1].
    apply (IH c1 c' Hinv1 Hrun Hnd1 Hlog1).
Qed.

(** Where a run of the calls leaves thread number [t]. *)
Lemma run_sched_thread calls w s c t :
  run_sched (spawn calls w) s = Some c ->
  (t ∈ s /\ (t < length calls)%nat
   /\ threads c !! t = Some (Ret (-1)) /\ errno (state c) !! t = Some ENOSYS)
  \/ ((t ∉ s \/ (length calls <= t)%nat)
      /\ threads c !! t = call <$> calls !! t
      /\ errno (state c) !! t = errno w !! t).
Proof.
  intros Hrun. pose proof (spawn_inv calls w) as Hinv.
  assert (Hspawn : threads (spawn calls w) !! t = call <$> calls !! t)
    by apply list_lookup_fmap.
  destruct (decide (t ∈ s)) as [Hin|Hnot].
  - destruct (decide (t < length calls)%nat) as [Hlt|Hge].
    + left. split_and!; [exact Hin|exact Hlt| |].
      * apply (run_sched_returns s _ c t Hinv Hrun Hin).
        simpl. rewrite length_map. exact Hlt.
      * destruct (run_sched_inv s _ Hinv) as (c' & Hrun' & Hinv' & _).
        rewrite Hrun in Hrun'. injection Hrun' as <-.
        apply (returned_errno c t Hinv').
        apply (run_sched_returns s _ c t Hinv Hrun Hin).
        simpl. rewrite length_map. exact Hlt.
    + right. assert (Hnone : calls !! t = None) by (apply lookup_ge_None; lia).
      rewrite Hnone in Hspawn |- *.
      destruct (run_sched_no_thread s _ c t Hinv Hrun Hspawn) as [He Ht].
      split_and!; [right; lia|exact Ht|exact He].
  - right. destruct (run_sched_unscheduled s _ c t Hinv Hrun Hnot) as [He Ht].
    split_and!; [left; exact Hnot|congruence|exact He].
Qed.


(** X2. The outcome of concurrent calls does not depend on the interleaving:
    two schedules that let the same threads run, in any order and any number
    of times, end with the same threads returned and in the same world. *)
Theorem copy_file_range_schedule_independent
    (calls : list args) (w : world) (s1 s2 : list tid)
    (Hs : forall t, t ∈ s1 <-> t ∈ s2) :
  exists c1 c2,
    run_sched (spawn calls w) s1 = Some c1
    /\ run_sched (spawn calls w) s2 = Some c2
    /\ threads c1 = threads c2
    /\ state c1 = state c2.
Proof.
  destruct (run_sched_inv s1 _ (spawn_inv calls w))
    as (c1 & Hrun1 & _ & _ & Hmem1 & Hfds1 & _).
  destruct (run_sched_inv s2 _ (spawn_inv calls w))
    as (c2 & Hrun2 & _ & _ & Hmem2 & Hfds2 & _).
  exists c1, c2. split; [exact Hrun1|]. split; [exact Hrun2|].
  assert (Hsame : forall t, threads c1 !! t = threads c2 !! t
                            /\ errno (state c1) !! t = errno (state c2) !! t).
  { intros t.
    destruct (run_sched_thread calls w s1 c1 t Hrun1)
      as [(Hin1 & Hlt1 & Ht1 & He1)|([Hnot1|Hge1] & Ht1 & He1)];
    destruct (run_sched_thread calls w s2 c2 t Hrun2)
      as [(Hin2 & Hlt2 & Ht2 & He2)|([Hnot2|Hge2] & Ht2 & He2)];
    try (split; congruence);
    try (exfalso; apply Hs in Hin1; contradiction);
    try (exfalso; apply Hs in Hin2; contradiction);
    exfalso; lia. }
  split.
  - apply list_eq. intros t. apply Hsame.
  - simpl in Hmem1, Hfds1, Hmem2, Hfds2.
    destruct (state c1) as [e1 m1 f1], (state c2) as [e2 m2 f2]. simpl in *.
    f_equal; [|congruence|congruence].
    apply map_eq. intros t. apply Hsame.
Qed.

(** X3. In a run of concurrent calls every thread makes one access in all,
    however often it is scheduled: the log holds one entry for each thread
    that was scheduled and has a call to make, none for any other, and every
    entry is a store of [ENOSYS] to [errno]. *)
Theorem copy_file_range_one_store_per_thread
    (calls : list args) (w : world) (s : list tid) :
  exists c,
    run_sched (spawn calls w) s = Some c
    /\ NoDup (log c).*1
    /\ Forall (fun te : tid * event => te.2 = EvErrno ENOSYS) (log c)
    /\ forall t, t ∈ (log c).*1 <-> (t ∈ s /\ (t < length calls)%nat).
Proof.
  pose proof (spawn_inv calls w) as Hinv.
  destruct (run_sched_inv s _ Hinv) as (c & Hrun & Hinv' & _).
  assert (Hlog0 : forall t, t ∈ (log (spawn calls w)).*1
                            <-> threads (spawn calls w) !! t = Some (Ret (-1))).
  { intros t. simpl. rewrite elem_of_nil. split; [contradiction|].
    intros Ht. apply list_lookup_fmap_Some in Ht as (a & Ha & _).
    rewrite call_body in Ha. discriminate Ha. }
  destruct (run_sched_log s _ c Hinv Hrun (NoDup_nil_2 (A:=nat)) Hlog0) as [Hnd Hlog].
  exists c. split_and!; [exact Hrun|exact Hnd|apply Hinv'|].
  intros t. rewrite Hlog.
  destruct (run_sched_thread calls w s c t Hrun)
    as [(Hin & Hlt & Ht & _)|(Hor & Ht & _)].
  - split; auto.
  - rewrite Ht. split.
    + intros Hret. destruct (calls !! t) as [a|]; simpl in Hret.
      * rewrite call_body in Hret. discriminate Hret.
      * discriminate Hret.
    + intros [Hin Hlt]. destruct Hor as [Hnot|Hge]; [contradiction|lia].
Qed.

End Shim.

(** ** The scenarios of the specification, with Linux's [ENOSYS] = 38 *)

(** Two open descriptors, offsets of 0, length 4096, flags 0. *)
Example scenario_open_descriptors :
  run 0 (copy_file_range 38 3 4096 4 4104 4096 0) fixture
    = Some (-1, set_errno 0 38 fixture)
  /\ fds (set_errno 0 38 fixture) !! 3 = Some (File [104; 105; 33] 0)
  /\ fds (set_errno 0 38 fixture) !! 4 = Some (File [] 0).
Proof. split_and!; reflexivity. Qed.

(** Invalid descriptors and null offset pointers. *)
Example scenario_invalid_descriptors :
  observe 0 (copy_file_range 38 (-1) NULL (-1) NULL 0 0) fixture = Some (-1, Some 38).
Proof. apply (observe_call 38 (Args (-1) NULL (-1) NULL 0 0)). Qed.

(** Two threads, the second scheduled first. *)
Lemma copy_file_range_concurrent_witness :
  exists c,
    run_sched (spawn 38 [Args 3 4096 4 4104 4096 0; Args (-1) NULL (-1) NULL 0 7] fixture)
              [1; 0; 1]%nat = Some c
    /\ threads c !! 1%nat = Some (Ret (-1))
    /\ errno (state c) !! 1%nat = Some 38
    /\ race_free (log c) = true
    /\ mem (state c) = mem fixture
    /\ fds (state c) = fds fixture.
Proof.
  apply (copy_file_range_concurrent 38
           [Args 3 4096 4 4104 4096 0; Args (-1) NULL (-1) NULL 0 7]
           fixture [1; 0; 1]%nat 1%nat).
  - simpl. lia.
  - apply list_elem_of_here.
Defined.


(** Two schedules of two threads, one of them with a thread repeated. *)
Lemma copy_file_range_schedule_independent_witness :
  exists c1 c2,
    run_sched (spawn 38 [Args 3 4096 4 4104 4096 0; Args (-1) NULL (-1) NULL 0 7] fixture)
              [0; 1]%nat = Some c1
    /\ run_sched (spawn 38 [Args 3 4096 4 4104 4096 0; Args (-1) NULL (-1) NULL 0 7] fixture)
                 [1; 0; 1]%nat = Some c2
    /\ threads c1 = threads c2
    /\ state c1 = state c2.
Proof.
  apply (copy_file_range_schedule_independent 38
           [Args 3 4096 4 4104 4096 0; Args (-1) NULL (-1) NULL 0 7]
           fixture [0; 1]%nat [1; 0; 1]%nat).
  intros t. rewrite !elem_of_cons, !elem_of_nil. tauto.
Defined.
